(** * threadsafe_queue: a shallow embedding of [include/threadsafe_queue.hpp]

    The queue is a singly linked list of heap nodes with a [head_] handle
    that owns the first node, a raw [tail_] pointer to the last one, two
    mutexes and a condition variable.  The embedding keeps the free store
    explicit (a finite map from addresses to nodes), threads the queue
    object through every member function, and gives every member function
    an outcome: it returns, it throws [std::bad_alloc], it waits on the
    condition variable with nobody left to push, or it runs into undefined
    behaviour (a null or dangling dereference, a relock).

    One run of one thread is modelled: interleavings of several threads are
    outside this development. *)

From stdpp Require Import gmap list.
From Stdlib Require Import ZArith.

(** ** Pointers and payloads *)

Definition addr := positive.

(** [std::unique_ptr<node_t>] and [node_t*]: null, or the address of a node. *)
Abbreviation ptr := (option addr).

(** What the queue asks of its element type [T]:
    - [moved_from v] is the value [std::move] leaves behind in an object
      that held [v] (line 99);
    - [assign_handle v p] is the value of an object that held [v] after a
      node handle [p] has been assigned to it (line 134): [try_pop(T&)]
      is well-formed only for a [T] that has such an assignment. *)
Class Payload (T : Type) := {
  moved_from : T → T;
  assign_handle : T → ptr → T
}.

(** [int]: moving copies.  [int] has no assignment from a node handle; the
    instance leaves the object as it is. *)
#[export] Instance int_payload : Payload Z := {
  moved_from v := v;
  assign_handle v _ := v
}.

(** Whether [std::make_shared] / [std::make_unique] gets its memory. *)
Inductive allocation := granted | exhausted.

(** ** Outcomes and the monad of member functions

    A member function takes the queue object (with its free store) and
    - returns a value and the object it leaves, or
    - lets [std::bad_alloc] escape, leaving the object as given, or
    - sleeps on the condition variable with no thread left to wake it, or
    - has undefined behaviour: the language then promises nothing about
      what follows, so no state is attached. *)

Inductive outcome (Q A : Type) : Type :=
| Returns (a : A) (q : Q)
| Throws (q : Q)
| Blocks
| Undefined.
Arguments Returns {Q A} a q.
Arguments Throws {Q A} q.
Arguments Blocks {Q A}.
Arguments Undefined {Q A}.

Definition M (Q A : Type) : Type := Q → outcome Q A.

Definition ret {Q A} (a : A) : M Q A := λ q, Returns a q.

Definition bind {Q A B} (m : M Q A) (k : A → M Q B) : M Q B := λ q,
  match m q with
  | Returns a q' => k a q'
  | Throws q' => Throws q'
  | Blocks => Blocks
  | Undefined => Undefined
  end.

Definition gets {Q A} (f : Q → A) : M Q A := λ q, Returns (f q) q.
Definition modify {Q} (f : Q → Q) : M Q unit := λ q, Returns tt (f q).
Definition throw {Q A} : M Q A := λ q, Throws q.
Definition blocks {Q A} : M Q A := λ _, Blocks.
Definition undefined {Q A} : M Q A := λ _, Undefined.

Notation "x <- m ;; k" := (bind m (λ x, k))
  (at level 100, m at next level, right associativity).
Notation "m ;; k" := (bind m (λ _, k))
  (at level 100, right associativity).

Section queue.
Context {T : Type} `{Payload T}.

(** ** The data model (lines 9-19) *)

(** [data] is the [shared_ptr<T>]: null or a payload. *)
Record node_t := Node {
  data : option T;
  next : ptr
}.

(** The queue object together with the nodes alive in the free store.
    A mutex is [true] while it is held; [data_cond_] counts the
    [notify_one] calls made so far. *)
Record threadsafe_queue := Queue {
  nodes : gmap addr node_t;
  head_mutex_ : bool;
  head_ : ptr;
  tail_mutex_ : bool;
  tail_ : ptr;
  data_cond_ : nat
}.

Definition set_nodes (f : gmap addr node_t → gmap addr node_t) (q : threadsafe_queue) :=
  Queue (f (nodes q)) (head_mutex_ q) (head_ q) (tail_mutex_ q) (tail_ q) (data_cond_ q).
Definition set_head_mutex_ (b : bool) (q : threadsafe_queue) :=
  Queue (nodes q) b (head_ q) (tail_mutex_ q) (tail_ q) (data_cond_ q).
Definition set_head_ (p : ptr) (q : threadsafe_queue) :=
  Queue (nodes q) (head_mutex_ q) p (tail_mutex_ q) (tail_ q) (data_cond_ q).
Definition set_tail_mutex_ (b : bool) (q : threadsafe_queue) :=
  Queue (nodes q) (head_mutex_ q) (head_ q) b (tail_ q) (data_cond_ q).
Definition set_tail_ (p : ptr) (q : threadsafe_queue) :=
  Queue (nodes q) (head_mutex_ q) (head_ q) (tail_mutex_ q) p (data_cond_ q).
Definition set_data_cond_ (n : nat) (q : threadsafe_queue) :=
  Queue (nodes q) (head_mutex_ q) (head_ q) (tail_mutex_ q) (tail_ q) n.

(** ** The free store *)

(** [*p] and [p->]: the node behind [p]; undefined for a null pointer and
    for an address that holds no live node. *)
Definition deref (p : ptr) : M threadsafe_queue (addr * node_t) := λ q,
  match p with
  | Some a =>
      match nodes q !! a with
      | Some n => Returns (a, n) q
      | None => Undefined
      end
  | None => Undefined
  end.

Definition store (a : addr) (n : node_t) : M threadsafe_queue unit :=
  modify (set_nodes (<[a := n]>)).

(** [std::make_shared<T>]: the payload holder lives inside the node that
    shares it, so a successful allocation leaves the store as it is. *)
Definition make_shared (mem : allocation) (value : T) : M threadsafe_queue (option T) :=
  match mem with
  | granted => ret (Some value)
  | exhausted => throw
  end.

(** [std::make_unique<node_t>()]: a value-initialised node (both members
    null) at an address that holds no live node. *)
Definition make_unique (mem : allocation) : M threadsafe_queue ptr :=
  match mem with
  | granted =>
      a <- gets (λ q, fresh (dom (nodes q))) ;;
      store a (Node None None) ;;
      ret (Some a)
  | exhausted => throw
  end.

(** Destruction of a [unique_ptr<node_t>]: deleting the node deletes the
    node its [next] owns, and so on.  Each step removes a live node, so
    [fuel] = number of live nodes is enough; running out of it means the
    pointer at hand is dangling. *)
Fixpoint delete_from (fuel : nat) (p : ptr) : M threadsafe_queue unit :=
  match p with
  | None => ret tt
  | Some _ =>
      match fuel with
      | O => undefined
      | S k =>
          an <- deref p ;;
          modify (set_nodes (delete an.1)) ;;
          delete_from k (next an.2)
      end
  end.

Definition delete_ptr (p : ptr) : M threadsafe_queue unit := λ q, delete_from (size (nodes q)) p q.

(** ** Mutexes and the condition variable *)

(** Locking a [std::mutex] the thread already holds is undefined. *)
Definition lock_head : M threadsafe_queue unit :=
  held <- gets head_mutex_ ;;
  if held : bool then undefined else modify (set_head_mutex_ true).
Definition unlock_head : M threadsafe_queue unit := modify (set_head_mutex_ false).
Definition lock_tail : M threadsafe_queue unit :=
  held <- gets tail_mutex_ ;;
  if held : bool then undefined else modify (set_tail_mutex_ true).
Definition unlock_tail : M threadsafe_queue unit := modify (set_tail_mutex_ false).

Definition notify_one : M threadsafe_queue unit :=
  n <- gets data_cond_ ;; modify (set_data_cond_ (S n)).

(** ** Member functions *)

(** Lines 40-43: one value-initialised node, [head_] owns it, [tail_]
    points at it. *)
Definition threadsafe_queue_new : threadsafe_queue :=
  Queue {[ 1%positive := Node None None ]} false (Some 1%positive) false (Some 1%positive) 0.

(** Lines 45-60. *)
Definition push (mem_data mem_node : allocation) (value : T) : M threadsafe_queue unit :=
  new_data <- make_shared mem_data value ;;           (* the local [data] *)
  node <- make_unique mem_node ;;
  lock_tail ;;
  t <- gets tail_ ;;
  tn <- deref t ;;
  store tn.1 (Node new_data (next tn.2)) ;;        (* tail_->data = data *)
  let tail := node in                              (* node.get() *)
  tn <- deref t ;;
  store tn.1 (Node (data tn.2) node) ;;            (* tail_->next = std::move(node) *)
  delete_ptr (next tn.2) ;;                        (* what tail_->next owned before *)
  modify (set_tail_ tail) ;;
  unlock_tail ;;
  notify_one.

(** Lines 62-67. *)
Definition get_tail : M threadsafe_queue ptr :=
  lock_tail ;;
  t <- gets tail_ ;;
  unlock_tail ;;
  ret t.

(** Lines 69-75.  [std::move(head_)] hands the node to [old_head] and
    leaves [head_] null; line 73 then goes through [head_]. *)
Definition pop_head : M threadsafe_queue ptr :=
  old_head <- gets head_ ;;
  modify (set_head_ None) ;;
  h <- gets head_ ;;
  hn <- deref h ;;                                  (* head_->next *)
  store hn.1 (Node (data hn.2) None) ;;
  was <- gets head_ ;;
  modify (set_head_ (next hn.2)) ;;                (* head_ = std::move(...) *)
  delete_ptr was ;;
  ret old_head.

(** Lines 77-86.  The predicate is checked with [head_mutex_] held; when it
    fails the thread sleeps on [data_cond_], and in a run with no other
    thread nobody wakes it with data.  The lock is handed to the caller. *)
Definition wait_for_data : M threadsafe_queue unit :=
  lock_head ;;
  h <- gets head_ ;;
  t <- get_tail ;;
  if decide (h ≠ t) then ret tt else blocks.

(** Lines 88-93. *)
Definition wait_and_pop_head : M threadsafe_queue ptr :=
  wait_for_data ;;
  old <- pop_head ;;
  unlock_head ;;
  ret old.

(** Line 99: [value = std::move( *head_->data )]. *)
Definition move_head_data : M threadsafe_queue T :=
  h <- gets head_ ;;
  hn <- deref h ;;
  match data hn.2 with
  | Some v => store hn.1 (Node (Some (moved_from v)) (next hn.2)) ;; ret v
  | None => undefined
  end.

(** Lines 95-101, with the conversion of line 100 written out.  As the
    line stands it returns a [unique_ptr<node_t>] from a function that
    returns [bool]; the handle converts to [bool] only explicitly, so the
    member is ill-formed for every [T] and no program can call it.  What is
    defined here is the body with [static_cast<bool>] supplied, the null
    test.  The statements below that mention it say only that this
    reading, too, runs into [pop_head]; none of them rests on it. *)
Definition wait_and_pop_head_value (value : T) : M threadsafe_queue (bool * T) :=
  wait_for_data ;;
  value <- move_head_data ;;
  old <- pop_head ;;
  let flag := bool_decide (is_Some old) in
  delete_ptr old ;;
  unlock_head ;;
  ret (flag, value).

(** Lines 103-107. *)
Definition wait_and_pop : M threadsafe_queue (option T) :=
  old <- wait_and_pop_head ;;
  on <- deref old ;;
  delete_ptr old ;;
  ret (data on.2).

(** Lines 109-113. *)
Definition wait_and_pop_value (value : T) : M threadsafe_queue (bool * T) :=
  wait_and_pop_head_value value.

(** Lines 115-124. *)
Definition try_pop : M threadsafe_queue (option T) :=
  lock_head ;;
  h <- gets head_ ;;
  t <- get_tail ;;
  if decide (h = t) then unlock_head ;; ret None
  else
    old <- pop_head ;;
    on <- deref old ;;
    delete_ptr old ;;
    unlock_head ;;
    ret (data on.2).

(** Lines 126-136: the detached handle itself is assigned to [value]. *)
Definition try_pop_value (value : T) : M threadsafe_queue (bool * T) :=
  lock_head ;;
  h <- gets head_ ;;
  t <- get_tail ;;
  if decide (h = t) then unlock_head ;; ret (false, value)
  else
    old <- pop_head ;;
    let value := assign_handle value old in
    unlock_head ;;
    ret (true, value).

(** Lines 138-143. *)
Definition empty : M threadsafe_queue bool :=
  lock_head ;;
  h <- gets head_ ;;
  t <- get_tail ;;
  unlock_head ;;
  ret (bool_decide (h = t)).

(** ** What a queue object stands for *)

(** [chain h p vs t]: following [next] from [p] through the store [h]
    visits one node per element of [vs], each carrying that element, and
    arrives at [t]. *)
Fixpoint chain (h : gmap addr node_t) (p : ptr) (vs : list T) (t : addr) : Prop :=
  match vs with
  | [] => p = Some t
  | v :: vs' =>
      ∃ a nx, p = Some a ∧ h !! a = Some (Node (Some v) nx) ∧ chain h nx vs' t
  end.

(** No member function is running: both mutexes are free. *)
Definition at_rest (q : threadsafe_queue) : Prop :=
  head_mutex_ q = false ∧ tail_mutex_ q = false.

(** The queue object [q] holds the values [vs], oldest first: the nodes from
    [head_] carry them one by one and lead to the node [tail_] points at,
    which is a placeholder with no payload and no successor. *)
Definition represents (q : threadsafe_queue) (vs : list T) : Prop :=
  ∃ t, tail_ q = Some t ∧ nodes q !! t = Some (Node None None) ∧
       chain (nodes q) (head_ q) vs t ∧ at_rest q.

(** The three parts of the state invariant of the data model. *)
Definition has_a_node (q : threadsafe_queue) : Prop :=
  ∃ a n, head_ q = Some a ∧ nodes q !! a = Some n.
Definition tail_without_payload (q : threadsafe_queue) : Prop :=
  ∃ t n, tail_ q = Some t ∧ nodes q !! t = Some n ∧ data n = None.
Definition invariant (q : threadsafe_queue) : Prop :=
  ∃ vs, represents q vs ∧ has_a_node q ∧ (vs = [] ↔ head_ q = tail_ q) ∧
        tail_without_payload q.

(** The payload carried by the node [p] points at, if any. *)
Definition payload_at (q : threadsafe_queue) (p : ptr) : option T :=
  a ← p; n ← nodes q !! a; data n.

(** The node after the one [p] points at. *)
Definition next_of (q : threadsafe_queue) (p : ptr) : ptr :=
  a ← p; n ← nodes q !! a; next n.

(** A pop as the lifecycle paragraph of the data model words it: on a
    non-empty queue it returns the payload of the node after the head and
    leaves [head_] on that node. *)
Definition yields_next_payload (pop : M threadsafe_queue (option T))
    (q : threadsafe_queue) : Prop :=
  head_ q ≠ tail_ q →
  ∃ q', pop q = Returns (payload_at q (next_of q (head_ q))) q' ∧
        head_ q' = next_of q (head_ q).

End queue.

Arguments node_t : clear implicits.
Arguments threadsafe_queue : clear implicits.
Arguments Node {T} data next.
Arguments Queue {T} nodes head_mutex_ head_ tail_mutex_ tail_ data_cond_.

(** ** A client on a queue of [int]

    The objects a single thread meets when it constructs a queue and
    pushes; each is checked below to be what the calls leave. *)

(** After the constructor. *)
Definition queue_0 : threadsafe_queue Z := threadsafe_queue_new.

(** After the constructor and [push(7)]. *)
Definition queue_7 : threadsafe_queue Z :=
  Queue (<[2%positive := Node None None]>
           {[1%positive := Node (Some 7%Z) (Some 2%positive)]})
        false (Some 1%positive) false (Some 2%positive) 1.

(** After the constructor, [push(1)], [push(2)] and [push(3)]. *)
Definition queue_123 : threadsafe_queue Z :=
  Queue (<[4%positive := Node None None]>
           (<[3%positive := Node (Some 3%Z) (Some 4%positive)]>
              (<[2%positive := Node (Some 2%Z) (Some 3%positive)]>
                 {[1%positive := Node (Some 1%Z) (Some 2%positive)]})))
        false (Some 1%positive) false (Some 4%positive) 3.

(** [push] with memory to spare. *)
Definition push_ok {T} (value : T) : M (threadsafe_queue T) unit :=
  push granted granted value.

(** ** The destructor and a producer loop *)

Section lifetime.
Context {T : Type}.

(** Line 30, [~threadsafe_queue() = default]: the members go in reverse
    order of declaration.  [data_cond_] and the raw [tail_] own nothing;
    destroying a mutex that is held is undefined; destroying [head_]
    deletes the node it owns, whose destructor deletes the node its [next]
    owns, and so on: the deletions nest, one inside the other, one per
    node.  [stack] is the number of nested node deletions the call stack
    has room for; a list with more nodes overflows it, which is undefined.
    The object returned is what is left of the free store. *)
Definition threadsafe_queue_delete (stack : nat) : M (threadsafe_queue T) unit :=
  held <- gets tail_mutex_ ;;
  (if held : bool then undefined else ret tt) ;;
  h <- gets head_ ;;
  delete_from stack h ;;
  held <- gets head_mutex_ ;;
  if held : bool then undefined else ret tt.

(** A producer: [push] of each value of [vs] in turn, with memory to
    spare. *)
Fixpoint push_all (vs : list T) : M (threadsafe_queue T) unit :=
  match vs with
  | [] => ret tt
  | v :: vs' => push_ok v ;; push_all vs'
  end.

End lifetime.

(** * Properties *)

(** ** Running the monad *)

Lemma bind_returns {Q A B} (m : M Q A) (k : A → M Q B) (s s' : Q) (x : A) :
  m s = Returns x s' → bind m k s = k x s'.
Proof. unfold bind. by intros ->. Qed.

Lemma bind_undefined {Q A B} (m : M Q A) (k : A → M Q B) (s : Q) :
  m s = Undefined → bind m k s = Undefined.
Proof. unfold bind. by intros ->. Qed.

Lemma bind_throws {Q A B} (m : M Q A) (k : A → M Q B) (s s' : Q) :
  m s = Throws s' → bind m k s = Throws s'.
Proof. unfold bind. by intros ->. Qed.

Lemma bind_gets {Q A B} (f : Q → A) (k : A → M Q B) (s : Q) :
  bind (gets f) k s = k (f s) s.
Proof. reflexivity. Qed.

Lemma bind_modify {Q B} (f : Q → Q) (k : unit → M Q B) (s : Q) :
  bind (modify f) k s = k tt (f s).
Proof. reflexivity. Qed.

Lemma bind_blocks {Q A B} (m : M Q A) (k : A → M Q B) (s : Q) :
  m s = Blocks → bind m k s = Blocks.
Proof. unfold bind. by intros ->. Qed.

Section properties.
Context {T : Type} `{Payload T}.
Implicit Types (q : threadsafe_queue T) (vs : list T) (h : gmap addr (node_t T)).
Implicit Types (p : ptr) (a t : addr) (v value : T).

Ltac run := unfold bind, gets, modify, ret, throw, blocks, undefined; simpl.

(** ** Locks and the tail read *)

Lemma lock_head_free q :
  head_mutex_ q = false → lock_head q = Returns tt (set_head_mutex_ true q).
Proof. unfold lock_head. run. by intros ->. Qed.

Lemma lock_tail_free q :
  tail_mutex_ q = false → lock_tail q = Returns tt (set_tail_mutex_ true q).
Proof. unfold lock_tail. run. by intros ->. Qed.

Lemma lock_head_held q : head_mutex_ q = true → lock_head q = Undefined.
Proof. unfold lock_head. run. by intros ->. Qed.

Lemma lock_tail_held q : tail_mutex_ q = true → lock_tail q = Undefined.
Proof. unfold lock_tail. run. by intros ->. Qed.

Lemma get_tail_free q :
  tail_mutex_ q = false → get_tail q = Returns (tail_ q) q.
Proof.
  intros Hfree. unfold get_tail.
  rewrite (bind_returns _ _ _ _ _ (lock_tail_free q Hfree)).
  unfold unlock_tail. run. destruct q; simpl in *; by subst.
Qed.

Lemma unlock_after_lock_head q :
  head_mutex_ q = false → set_head_mutex_ false (set_head_mutex_ true q) = q.
Proof. destruct q; simpl; by intros ->. Qed.

(** ** The detach helper *)

(** Line 72 has emptied [head_] when line 73 goes through it. *)
Lemma pop_head_moved_from q : pop_head q = Undefined.
Proof. reflexivity. Qed.

(** ** Pops on an empty queue *)

Lemma try_pop_empty q :
  at_rest q → head_ q = tail_ q → try_pop q = Returns None q.
Proof.
  intros [Hh Ht] Heq. unfold try_pop.
  rewrite (bind_returns _ _ _ _ _ (lock_head_free q Hh)).
  rewrite bind_gets, (bind_returns _ _ _ _ _ (get_tail_free (set_head_mutex_ true q) Ht)); simpl.
  rewrite decide_True by done.
  unfold unlock_head. run. by rewrite unlock_after_lock_head.
Qed.

Lemma try_pop_value_empty q value :
  at_rest q → head_ q = tail_ q → try_pop_value value q = Returns (false, value) q.
Proof.
  intros [Hh Ht] Heq. unfold try_pop_value.
  rewrite (bind_returns _ _ _ _ _ (lock_head_free q Hh)).
  rewrite bind_gets, (bind_returns _ _ _ _ _ (get_tail_free (set_head_mutex_ true q) Ht)); simpl.
  rewrite decide_True by done.
  unfold unlock_head. run. by rewrite unlock_after_lock_head.
Qed.

Lemma empty_at_rest q :
  at_rest q → empty q = Returns (bool_decide (head_ q = tail_ q)) q.
Proof.
  intros [Hh Ht]. unfold empty.
  rewrite (bind_returns _ _ _ _ _ (lock_head_free q Hh)).
  rewrite bind_gets, (bind_returns _ _ _ _ _ (get_tail_free (set_head_mutex_ true q) Ht)); simpl.
  unfold unlock_head. run. by rewrite unlock_after_lock_head.
Qed.

Lemma wait_for_data_empty q :
  at_rest q → head_ q = tail_ q → wait_for_data q = Blocks.
Proof.
  intros [Hh Ht] Heq. unfold wait_for_data.
  rewrite (bind_returns _ _ _ _ _ (lock_head_free q Hh)).
  rewrite bind_gets, (bind_returns _ _ _ _ _ (get_tail_free (set_head_mutex_ true q) Ht)); simpl.
  by rewrite decide_False by (intros Hne; by apply Hne).
Qed.

Lemma wait_for_data_nonempty q :
  at_rest q → head_ q ≠ tail_ q →
  wait_for_data q = Returns tt (set_head_mutex_ true q).
Proof.
  intros [Hh Ht] Hne. unfold wait_for_data.
  rewrite (bind_returns _ _ _ _ _ (lock_head_free q Hh)).
  rewrite bind_gets, (bind_returns _ _ _ _ _ (get_tail_free (set_head_mutex_ true q) Ht)); simpl.
  by rewrite decide_True by done.
Qed.

(** ** Pops on a non-empty queue *)

Lemma try_pop_nonempty q :
  at_rest q → head_ q ≠ tail_ q → try_pop q = Undefined.
Proof.
  intros [Hh Ht] Hne. unfold try_pop.
  rewrite (bind_returns _ _ _ _ _ (lock_head_free q Hh)).
  rewrite bind_gets, (bind_returns _ _ _ _ _ (get_tail_free (set_head_mutex_ true q) Ht)); simpl.
  rewrite decide_False by done.
  by rewrite bind_undefined by apply pop_head_moved_from.
Qed.

Lemma try_pop_value_nonempty q value :
  at_rest q → head_ q ≠ tail_ q → try_pop_value value q = Undefined.
Proof.
  intros [Hh Ht] Hne. unfold try_pop_value.
  rewrite (bind_returns _ _ _ _ _ (lock_head_free q Hh)).
  rewrite bind_gets, (bind_returns _ _ _ _ _ (get_tail_free (set_head_mutex_ true q) Ht)); simpl.
  rewrite decide_False by done.
  by rewrite bind_undefined by apply pop_head_moved_from.
Qed.

Lemma wait_and_pop_head_nonempty q :
  at_rest q → head_ q ≠ tail_ q → wait_and_pop_head q = Undefined.
Proof.
  intros Hrest Hne. unfold wait_and_pop_head.
  rewrite (bind_returns _ _ _ _ _ (wait_for_data_nonempty q Hrest Hne)).
  by rewrite bind_undefined by apply pop_head_moved_from.
Qed.

Lemma wait_and_pop_nonempty q :
  at_rest q → head_ q ≠ tail_ q → wait_and_pop q = Undefined.
Proof.
  intros Hrest Hne. unfold wait_and_pop.
  by rewrite bind_undefined by by apply wait_and_pop_head_nonempty.
Qed.

(** ** push *)

Lemma delete_ptr_null q : delete_ptr None q = Returns tt q.
Proof. unfold delete_ptr. by destruct (size (nodes q)). Qed.

Lemma fresh_not_live q a n :
  nodes q !! a = Some n → a ≠ fresh (dom (nodes q)).
Proof.
  intros Hlive ->. apply (is_fresh (dom (nodes q))).
  apply elem_of_dom. by exists n.
Qed.

(** The object a completed push leaves: the old placeholder [t] carries the
    value and owns the new placeholder, [tail_] points at the new one, and
    one more notification has gone out. *)
Lemma push_granted q v t :
  tail_mutex_ q = false → tail_ q = Some t →
  nodes q !! t = Some (Node None None) →
  push granted granted v q =
    Returns tt
      (Queue (<[t := Node (Some v) (Some (fresh (dom (nodes q))))]>
                (<[fresh (dom (nodes q)) := Node None None]> (nodes q)))
             (head_mutex_ q) (head_ q) false (Some (fresh (dom (nodes q))))
             (S (data_cond_ q))).
Proof.
  intros Hfree Htail Hlive.
  pose proof (fresh_not_live q t _ Hlive) as Hne.
  destruct q as [h hm hd tm tl dc]; simpl in *; subst tm tl.
  unfold push, make_shared, make_unique, store, lock_tail, unlock_tail, notify_one, deref.
  run. rewrite lookup_insert_ne by done. rewrite Hlive. simpl.
  rewrite lookup_insert_eq. simpl.
  unfold set_nodes at 1; simpl.
  rewrite delete_ptr_null. simpl.
  unfold set_nodes, set_tail_mutex_, set_tail_, set_data_cond_; simpl.
  by rewrite insert_insert_eq.
Qed.

(** Memory runs out before the queue is touched. *)
Lemma push_exhausted q v mem_data mem_node :
  mem_data = exhausted ∨ mem_node = exhausted →
  push mem_data mem_node v q = Throws q.
Proof.
  intros [-> | ->]; [done |].
  destruct mem_data; reflexivity.
Qed.

(** ** The representation *)

Lemma chain_insert_other h p vs t a n :
  h !! a = None → chain h p vs t → chain (<[a := n]> h) p vs t.
Proof.
  intros Hfresh. revert p. induction vs as [| v vs IH]; intros p; simpl; [done |].
  intros (b & nx & -> & Hb & Hrest). exists b, nx. split_and!; [done | | by apply IH].
  rewrite lookup_insert_ne; [done |]. intros ->. congruence.
Qed.

Lemma chain_fill_tail h p vs t v a :
  h !! t = Some (Node None None) → chain h p vs t →
  chain (<[t := Node (Some v) (Some a)]> h) p (vs ++ [v]) a.
Proof.
  intros Htail. revert p. induction vs as [| w vs IH]; intros p; simpl.
  - intros ->. exists t, (Some a). by rewrite lookup_insert_eq.
  - intros (b & nx & -> & Hb & Hrest). exists b, nx.
    split_and!; [done | | by apply IH].
    rewrite lookup_insert_ne; [done |]. intros ->. congruence.
Qed.

Lemma chain_head_live h p vs t :
  h !! t = Some (Node None None) → chain h p vs t →
  ∃ a n, p = Some a ∧ h !! a = Some n.
Proof.
  intros Htail. destruct vs as [| v vs]; simpl.
  - intros ->. eauto.
  - intros (a & nx & -> & Ha & _). eauto.
Qed.

Lemma chain_empty_iff h p vs t :
  h !! t = Some (Node None None) → chain h p vs t →
  vs = [] ↔ p = Some t.
Proof.
  intros Htail. destruct vs as [| v vs]; simpl.
  - by intros ->.
  - intros (a & nx & -> & Ha & _). split; [done |].
    intros [= ->]. congruence.
Qed.

Lemma represents_invariant q vs : represents q vs → invariant q.
Proof.
  intros Hrep. pose proof Hrep as (t & Htl & Hlive & Hchain & Hrest).
  exists vs. split_and!; [done | | |].
  - destruct (chain_head_live _ _ _ _ Hlive Hchain) as (a & n & ? & ?).
    by exists a, n.
  - rewrite Htl. exact (chain_empty_iff _ _ _ _ Hlive Hchain).
  - by exists t, (Node None None).
Qed.

Lemma represents_new : represents (T:=T) threadsafe_queue_new [].
Proof. exists 1%positive. by split_and!. Qed.

Lemma represents_push q vs v :
  represents q vs →
  ∃ q', push granted granted v q = Returns tt q' ∧ represents q' (vs ++ [v]) ∧
        head_ q' = head_ q ∧ data_cond_ q' = S (data_cond_ q).
Proof.
  intros (t & Htl & Hlive & Hchain & Hh & Ht).
  eexists. split; [by apply (push_granted q v t) |]. simpl.
  split_and!; [| done | done].
  exists (fresh (dom (nodes q))). simpl. split_and!; [done | | | by split].
  - rewrite lookup_insert_ne by exact (fresh_not_live q t _ Hlive).
    by rewrite lookup_insert_eq.
  - apply chain_fill_tail.
    + rewrite lookup_insert_ne; [done |].
      intros Heq. by apply (fresh_not_live q t _ Hlive).
    + apply chain_insert_other; [| done].
      apply not_elem_of_dom, is_fresh.
Qed.

(** The head of a non-empty queue is not its tail. *)
Lemma represents_cons_nonempty q v vs :
  represents q (v :: vs) → at_rest q ∧ head_ q ≠ tail_ q.
Proof.
  intros (t & Htl & Hlive & Hchain & Hrest). split; [done |].
  rewrite Htl. intros Heq.
  by apply (chain_empty_iff _ _ (v :: vs) _ Hlive Hchain) in Heq.
Qed.

(** ** The invariant along the calls that come back *)

Lemma invariant_new : invariant (T:=T) threadsafe_queue_new.
Proof. apply (represents_invariant _ []), represents_new. Qed.

Lemma invariant_push q v mem_data mem_node :
  invariant q →
  (∃ q', push mem_data mem_node v q = Returns tt q' ∧ invariant q') ∨
  push mem_data mem_node v q = Throws q.
Proof.
  intros (vs & Hrep & _).
  destruct mem_data; [destruct mem_node |].
  - left. destruct (represents_push q vs v Hrep) as (q' & Hpush & Hrep' & _).
    exists q'. split; [done |]. by apply (represents_invariant _ (vs ++ [v])).
  - right. apply push_exhausted. by right.
  - right. apply push_exhausted. by left.
Qed.

Lemma invariant_empty q :
  invariant q → ∃ b, empty q = Returns b q.
Proof.
  intros (vs & (t & _ & _ & _ & Hrest) & _). eexists. by apply empty_at_rest.
Qed.

(** ** Statements for every queue *)

(** C7.  On an empty queue at rest ([head_] equal to [tail_], no member
    function running) both shapes of [try_pop] report absence, the null
    result and [false], and hand back the very same queue object: head,
    tail, nodes, payloads, mutexes and notification count are untouched,
    the output location keeps its value, and nothing is thrown. *)
Theorem C7_try_pop_empty_is_absent q value :
  at_rest q → head_ q = tail_ q →
  try_pop q = Returns None q ∧
  try_pop_value value q = Returns (false, value) q.
Proof.
  intros Hrest Heq. split.
  - by apply try_pop_empty.
  - by apply try_pop_value_empty.
Qed.

(** C9.  [push] is all or nothing with respect to memory.  When the payload
    holder or the new placeholder cannot be allocated, [std::bad_alloc]
    reaches the caller and the queue object is exactly the one passed in.
    When both allocations succeed on a queue holding [vs], the call returns
    a queue holding [vs ++ [v]]: the old placeholder carries [v] and is
    linked to the new one, [tail_] has moved to the new one, [head_] has
    not moved, and one notification was sent. *)
Theorem C9_push_all_or_nothing q vs v mem_data mem_node :
  represents q vs →
  match mem_data, mem_node with
  | granted, granted =>
      ∃ q', push mem_data mem_node v q = Returns tt q' ∧
            represents q' (vs ++ [v]) ∧
            payload_at q' (tail_ q) = Some v ∧
            next_of q' (tail_ q) = tail_ q' ∧
            tail_ q' ≠ tail_ q ∧
            head_ q' = head_ q ∧
            data_cond_ q' = S (data_cond_ q)
  | _, _ => push mem_data mem_node v q = Throws q
  end.
Proof.
  intros Hrep. destruct mem_data; [destruct mem_node |].
  - pose proof Hrep as (t & Htl & Hlive & Hchain & Hh & Ht).
    eexists. split; [by apply (push_granted q v t) |].
    destruct (represents_push q vs v Hrep) as (q' & Hpush & Hrep' & _).
    rewrite (push_granted q v t) in Hpush by done.
    injection Hpush as <-.
    split_and!; [done | | | | done | done].
    + unfold payload_at. rewrite Htl. simpl. by rewrite lookup_insert_eq.
    + unfold next_of. rewrite Htl. simpl. by rewrite lookup_insert_eq.
    + simpl. rewrite Htl. intros [= Heq].
      by apply (fresh_not_live q t _ Hlive).
  - apply push_exhausted. by right.
  - apply push_exhausted. by left.
Qed.

End properties.

(** ** Statements about the single-threaded client *)

Lemma represents_queue_7 : represents queue_7 [7%Z].
Proof.
  exists 2%positive. split_and!; [reflexivity | reflexivity | | by split].
  exists 1%positive, (Some 2%positive). by split_and!.
Qed.

Lemma represents_queue_123 : represents queue_123 [1%Z; 2%Z; 3%Z].
Proof.
  exists 4%positive. split_and!; [reflexivity | reflexivity | | by split].
  exists 1%positive, (Some 2%positive). split_and!; [reflexivity | reflexivity |].
  exists 2%positive, (Some 3%positive). split_and!; [reflexivity | reflexivity |].
  exists 3%positive, (Some 4%positive). by split_and!.
Qed.

Lemma push_7_on_new : push_ok 7%Z queue_0 = Returns tt queue_7.
Proof. vm_compute. reflexivity. Qed.

Lemma push_123_on_new :
  (push_ok 1%Z ;; push_ok 2%Z ;; push_ok 3%Z) queue_0
  = Returns tt queue_123.
Proof. vm_compute. reflexivity. Qed.

(** C1.  After the constructor and [push(7)] the queue is not empty, and
    neither shape of [try_pop] removes the front node and delivers 7: both
    reach line 73 of [pop_head] with [head_] moved from, which is
    undefined. *)
Theorem C1_try_pop_shapes_after_one_push :
  push_ok 7%Z queue_0 = Returns tt queue_7 ∧
  head_ queue_7 ≠ tail_ queue_7 ∧
  try_pop queue_7 = Undefined ∧
  try_pop_value 0%Z queue_7 = Undefined.
Proof. split_and!; [apply push_7_on_new | done | reflexivity | reflexivity]. Qed.

(** C2.  On the non-empty queue left by the constructor and [push(7)],
    [pop_head] does not advance [head_] and yields no node: line 72 moves
    [head_] into [old_head], so the [head_->next] of line 73 goes through a
    null handle.  The same holds for every queue object. *)
Theorem C2_pop_head_dereferences_moved_from_head :
  head_ queue_7 ≠ tail_ queue_7 ∧
  pop_head queue_7 = Undefined ∧
  ∀ (T : Type) (q : threadsafe_queue T), pop_head q = Undefined.
Proof. split_and!; [done | reflexivity | reflexivity]. Qed.

(** C3.  In the queue left by the constructor, [push(1)], [push(2)] and
    [push(3)] the head is not the tail and the node after the head is a
    filled node, not the tail.  A pop started there is undefined at line
    73 of [pop_head], for [try_pop()] and for [wait_and_pop()]: it detaches
    no node, does not advance [head_] to the next node and yields no
    payload. *)
Theorem C3_pops_on_nonempty_yield_nothing :
  head_ queue_123 ≠ tail_ queue_123 ∧
  next_of queue_123 (head_ queue_123) ≠ tail_ queue_123 ∧
  try_pop queue_123 = Undefined ∧
  wait_and_pop queue_123 = Undefined ∧
  ¬ yields_next_payload try_pop queue_123 ∧
  ¬ yields_next_payload wait_and_pop queue_123.
Proof.
  assert (head_ queue_123 ≠ tail_ queue_123) as Hne by done.
  split_and!; [done | done | reflexivity | reflexivity | |].
  - intros Hpop. destruct (Hpop Hne) as (q' & Hret & _).
    by rewrite (try_pop_nonempty queue_123) in Hret.
  - intros Hpop. destruct (Hpop Hne) as (q' & Hret & _).
    by rewrite (wait_and_pop_nonempty queue_123) in Hret.
Qed.

(** C4.  The three pushes leave a queue holding 1, 2, 3, and the first
    [try_pop] after them returns nothing: it is undefined. *)
Theorem C4_try_pop_after_three_pushes :
  (push_ok 1%Z ;; push_ok 2%Z ;; push_ok 3%Z) queue_0
    = Returns tt queue_123 ∧
  represents queue_123 [1%Z; 2%Z; 3%Z] ∧
  try_pop queue_123 = Undefined ∧
  (push_ok 1%Z ;; push_ok 2%Z ;; push_ok 3%Z ;; try_pop) queue_0
    = Undefined.
Proof.
  split_and!; [apply push_123_on_new | apply represents_queue_123 | |];
    vm_compute; reflexivity.
Qed.

(** C5.  On the non-empty queue left by the constructor and [push(7)] the
    predicate of the wait holds, and neither shape of [wait_and_pop]
    returns the payload: both are undefined, as both shapes of [try_pop]
    are. *)
Theorem C5_wait_and_pop_after_one_push :
  wait_for_data queue_7 = Returns tt (set_head_mutex_ true queue_7) ∧
  wait_and_pop queue_7 = Undefined ∧
  wait_and_pop_value 0%Z queue_7 = Undefined ∧
  try_pop queue_7 = Undefined ∧
  try_pop_value 0%Z queue_7 = Undefined.
Proof. split_and!; vm_compute; reflexivity. Qed.

(** C6.  The queue left by the constructor and [push(7)] satisfies the
    invariant, and each of the four pops started on it is undefined: none
    of them hands back a queue object for the invariant to hold of. *)
Theorem C6_invariant_not_kept_by_pops :
  invariant queue_7 ∧
  try_pop queue_7 = Undefined ∧
  try_pop_value 0%Z queue_7 = Undefined ∧
  wait_and_pop queue_7 = Undefined ∧
  wait_and_pop_value 0%Z queue_7 = Undefined.
Proof.
  split_and!; [| vm_compute; reflexivity ..].
  apply (represents_invariant _ [7%Z]), represents_queue_7.
Qed.

(** C8.  [empty()] is true on a fresh queue and false after one push; the
    pop of that value, in the non-blocking or in the blocking form, is
    undefined, so no third answer is obtained. *)
Theorem C8_empty_around_one_push_and_pop :
  empty queue_0 = Returns true queue_0 ∧
  (push_ok 7%Z ;; empty) queue_0 = Returns false queue_7 ∧
  (push_ok 7%Z ;; try_pop ;; empty) queue_0 = Undefined ∧
  (push_ok 7%Z ;; wait_and_pop ;; empty) queue_0 = Undefined.
Proof. split_and!; vm_compute; reflexivity. Qed.

(** ** Witnesses *)

Lemma C7_witness :
  at_rest queue_0 ∧
  head_ queue_0 = tail_ queue_0 ∧
  try_pop queue_0 = Returns None queue_0 ∧
  try_pop_value 5%Z queue_0 = Returns (false, 5%Z) queue_0.
Proof.
  split; [split; reflexivity |]. split; [reflexivity |].
  apply (C7_try_pop_empty_is_absent queue_0 5%Z).
  - split; reflexivity.
  - reflexivity.
Defined.

Lemma C9_witness :
  represents queue_0 [] ∧
  push exhausted granted 7%Z queue_0 = Throws queue_0 ∧
  push granted exhausted 7%Z queue_0 = Throws queue_0 ∧
  ∃ q', push granted granted 7%Z queue_0 = Returns tt q' ∧
        represents q' ([] ++ [7%Z]) ∧
        payload_at q' (tail_ queue_0) = Some 7%Z ∧
        next_of q' (tail_ queue_0) = tail_ q' ∧
        tail_ q' ≠ tail_ queue_0 ∧
        head_ q' = head_ queue_0 ∧
        data_cond_ q' = S (data_cond_ queue_0).
Proof.
  assert (represents queue_0 []) as Hrep.
  { exists 1%positive. split_and!; [reflexivity | reflexivity | reflexivity |].
    split; reflexivity. }
  split; [exact Hrep |]. split_and!.
  - exact (C9_push_all_or_nothing queue_0 [] 7%Z exhausted granted Hrep).
  - exact (C9_push_all_or_nothing queue_0 [] 7%Z granted exhausted Hrep).
  - exact (C9_push_all_or_nothing queue_0 [] 7%Z granted granted Hrep).
Defined.

(** * Further properties of the code *)

Section further.
Context {T : Type} `{Payload T}.
Implicit Types (q : threadsafe_queue T) (vs ws : list T) (h : gmap addr (node_t T)).
Implicit Types (p : ptr) (a t : addr) (v value : T).

(** ** The list behind [head_] *)

(** The nodes between [p] and the placeholder carry one list only. *)
Lemma chain_functional h p vs ws t :
  h !! t = Some (Node None None) →
  chain h p vs t → chain h p ws t → vs = ws.
Proof.
  intros Htail. revert p ws. induction vs as [| v vs IH]; intros p [| w ws]; simpl.
  - done.
  - intros -> (a & nx & [= <-] & Ha & _). congruence.
  - intros (a & nx & -> & Ha & _) [= ->]. congruence.
  - intros (a & nx & -> & Ha & Hrest) (b & nx' & [= <-] & Hb & Hrest').
    rewrite Ha in Hb. injection Hb as <- <-. f_equal. by apply (IH nx).
Qed.

(** A node that lies further from the placeholder than [p] does is not
    met on the way from [p], so deleting it leaves that way intact. *)
Lemma chain_delete_behind h p vs t a :
  (∀ ws, chain h (Some a) ws t → length vs < length ws) →
  chain h p vs t → chain (delete a h) p vs t.
Proof.
  revert p. induction vs as [| v vs IH]; intros p Hfar; simpl; [done |].
  intros (b & nx & -> & Hb & Hrest). exists b, nx. split_and!; [done | |].
  - rewrite lookup_delete_ne; [done |]. intros <-.
    assert (chain h (Some a) (v :: vs) t) as Hself by (simpl; eauto).
    apply Hfar in Hself. lia.
  - apply IH; [| done]. intros ws Hws. apply Hfar in Hws. simpl in Hws. lia.
Qed.

Lemma set_nodes_set_nodes q (f g : gmap addr (node_t T) → gmap addr (node_t T)) :
  set_nodes g (set_nodes f q) = set_nodes (λ m, g (f m)) q.
Proof. by destruct q. Qed.

(** Deleting the handle of a well-formed list of [length vs + 1] nodes
    with room for that many nested deletions frees each of its nodes, the
    placeholder included, and nothing else. *)
Lemma delete_from_chain vs : ∀ fuel q p t,
  chain (nodes q) p vs t → nodes q !! t = Some (Node None None) →
  length vs < fuel →
  ∃ h', delete_from fuel p q = Returns tt (set_nodes (λ _, h') q) ∧
        h' ⊆ nodes q ∧
        size (nodes q) = size h' + S (length vs) ∧
        h' !! t = None ∧
        (∀ a, p = Some a → h' !! a = None).
Proof.
  induction vs as [| v vs IH]; intros fuel q p t Hchain Htail Hfuel;
    simpl in Hchain, Hfuel.
  - subst p. exists (delete t (nodes q)).
    destruct fuel as [| fuel]; [lia |].
    split_and!.
    + simpl. unfold bind, deref, modify. rewrite Htail. simpl.
      by destruct fuel.
    + apply delete_subseteq.
    + rewrite map_size_delete_Some by eauto.
      assert (size (nodes q) ≠ 0) by (apply (map_size_ne_0_lookup_2 _ t); eauto).
      simpl. lia.
    + apply lookup_delete_eq.
    + intros a [= <-]. apply lookup_delete_eq.
  - destruct Hchain as (a & nx & -> & Ha & Hrest).
    assert (a ≠ t) as Hat by (intros ->; congruence).
    destruct fuel as [| fuel]; [lia |].
    destruct (IH fuel (set_nodes (delete a) q) nx t) as (h' & Hrun & Hsub & Hsize & Ht & _).
    { simpl. apply chain_delete_behind; [| done].
      intros ws Hws.
      assert (chain (nodes q) (Some a) (v :: vs) t) as Hself by (simpl; eauto).
      rewrite (chain_functional _ _ _ _ _ Htail Hws Hself). simpl. lia. }
    { simpl. by rewrite lookup_delete_ne. }
    { lia. }
    exists h'. simpl in Hrun, Hsub, Hsize. split_and!.
    + simpl. unfold bind at 1, deref. rewrite Ha. simpl.
      unfold bind at 1, modify. rewrite Hrun. by rewrite set_nodes_set_nodes.
    + etrans; [exact Hsub | apply delete_subseteq].
    + rewrite map_size_delete_Some in Hsize by eauto.
      assert (size (nodes q) ≠ 0) by (apply (map_size_ne_0_lookup_2 _ a); eauto).
      simpl. lia.
    + done.
    + intros b [= <-]. eapply lookup_weaken_None; [| exact Hsub].
      apply lookup_delete_eq.
Qed.

(** With room for fewer nested deletions than the list has nodes, the
    deletion runs out of stack. *)
Lemma delete_from_overflow vs : ∀ fuel q p t,
  chain (nodes q) p vs t → nodes q !! t = Some (Node None None) →
  fuel ≤ length vs →
  delete_from fuel p q = Undefined.
Proof.
  induction vs as [| v vs IH]; intros fuel q p t Hchain Htail Hfuel;
    simpl in Hchain, Hfuel.
  - subst p. by replace fuel with 0 by lia.
  - destruct Hchain as (a & nx & -> & Ha & Hrest).
    assert (a ≠ t) as Hat by (intros ->; congruence).
    destruct fuel as [| fuel]; [done |].
    simpl. unfold bind at 1, deref. rewrite Ha. simpl.
    unfold bind at 1, modify.
    apply (IH fuel (set_nodes (delete a) q) nx t).
    + simpl. apply chain_delete_behind; [| done].
      intros ws Hws.
      assert (chain (nodes q) (Some a) (v :: vs) t) as Hself by (simpl; eauto).
      rewrite (chain_functional _ _ _ _ _ Htail Hws Hself). simpl. lia.
    + simpl. by rewrite lookup_delete_ne.
    + lia.
Qed.

(** ** What the destructor leaves *)

Lemma destructor_run q vs stack :
  represents q vs →
  if decide (length vs < stack) then
    ∃ q', threadsafe_queue_delete stack q = Returns tt q' ∧
          nodes q' ⊆ nodes q ∧
          size (nodes q) = size (nodes q') + S (length vs) ∧
          (∀ a, head_ q = Some a ∨ tail_ q = Some a → nodes q' !! a = None)
  else threadsafe_queue_delete stack q = Undefined.
Proof.
  intros (t & Htl & Hlive & Hchain & Hh & Ht).
  destruct (decide (length vs < stack)) as [Hroom | Hshort].
  - destruct (delete_from_chain vs stack q (head_ q) t Hchain Hlive Hroom)
      as (h' & Hrun & Hsub & Hsize & Hfreed_t & Hfreed_h).
    exists (set_nodes (λ _, h') q).
    split_and!; [| done | done |].
    + unfold threadsafe_queue_delete. rewrite bind_gets, Ht.
      unfold bind at 1, ret at 1. rewrite bind_gets.
      unfold bind at 1. rewrite Hrun. rewrite bind_gets. simpl. by rewrite Hh.
    + intros a [Ha | Ha]; [by apply Hfreed_h |].
      rewrite Htl in Ha. by injection Ha as <-.
  - unfold threadsafe_queue_delete. rewrite bind_gets, Ht.
    unfold bind at 1, ret at 1. rewrite bind_gets.
    unfold bind at 1.
    by rewrite (delete_from_overflow vs stack q (head_ q) t Hchain Hlive) by lia.
Qed.

(** X5.  On a queue holding [vs] the destructor nests one node deletion
    per node of the list, [length vs + 1] of them.  When the call stack has
    room for that many it returns, having freed exactly those nodes, the
    head node and the placeholder among them, and no other node of the
    free store; when it has not, the destructor is undefined. *)
Theorem destructor_frees_the_list q vs stack :
  represents q vs →
  if decide (length vs < stack) then
    ∃ q', threadsafe_queue_delete stack q = Returns tt q' ∧
          nodes q' ⊆ nodes q ∧
          size (nodes q) = size (nodes q') + S (length vs) ∧
          (∀ a, head_ q = Some a ∨ tail_ q = Some a → nodes q' !! a = None)
  else threadsafe_queue_delete stack q = Undefined.
Proof. apply destructor_run. Qed.

(** ** Producers *)

Lemma push_ok_appends q ws v :
  represents q ws →
  ∃ q', push_ok v q = Returns tt q' ∧ represents q' (ws ++ [v]) ∧
        head_ q' = head_ q ∧ data_cond_ q' = S (data_cond_ q) ∧
        size (nodes q') = S (size (nodes q)).
Proof.
  intros Hrep. pose proof Hrep as (t & Htl & Hlive & _ & _ & Ht).
  destruct (represents_push q ws v Hrep) as (q' & Hpush & Hrep' & Hhd & Hdc).
  exists q'. split_and!; [done | done | done | done |].
  unfold push_ok in *. rewrite (push_granted q v t) in Hpush by done.
  injection Hpush as <-. simpl.
  rewrite map_size_insert_Some.
  - apply map_size_insert_None, not_elem_of_dom, is_fresh.
  - rewrite lookup_insert_ne; [by eexists |].
    intros Heq. by apply (fresh_not_live q t _ Hlive).
Qed.

Lemma push_all_run vs : ∀ q ws,
  represents q ws →
  ∃ q', push_all vs q = Returns tt q' ∧ represents q' (ws ++ vs) ∧
        head_ q' = head_ q ∧
        data_cond_ q' = data_cond_ q + length vs ∧
        size (nodes q') = size (nodes q) + length vs.
Proof.
  induction vs as [| v vs IH]; intros q ws Hrep; simpl.
  - exists q. rewrite app_nil_r. split_and!; [done | done | done | lia | lia].
  - destruct (push_ok_appends q ws v Hrep) as (q1 & Hpush & Hrep1 & Hhd1 & Hdc1 & Hsz1).
    destruct (IH q1 (ws ++ [v]) Hrep1) as (q' & Hrun & Hrep' & Hhd & Hdc & Hsz).
    exists q'. rewrite (bind_returns _ _ _ _ _ Hpush).
    rewrite <- app_assoc in Hrep'. simpl in Hrep'.
    split_and!; [done | done | congruence | lia | lia].
Qed.

(** X1.  Pushing the values of [vs] in turn onto a queue holding [ws]
    returns a queue holding [ws ++ vs]: the values sit behind the old ones
    in the order of the calls.  [head_] has not moved, one notification
    went out per value and one node was allocated per value. *)
Theorem push_all_appends vs : ∀ q ws,
  represents q ws →
  ∃ q', push_all vs q = Returns tt q' ∧ represents q' (ws ++ vs) ∧
        head_ q' = head_ q ∧
        data_cond_ q' = data_cond_ q + length vs ∧
        size (nodes q') = size (nodes q) + length vs.
Proof. apply push_all_run. Qed.

(** ** Observers *)

Lemma empty_run q vs :
  represents q vs →
  empty q = Returns (bool_decide (vs = [])) q.
Proof.
  intros (t & Htl & Hlive & Hchain & Hrest).
  rewrite empty_at_rest by done. f_equal.
  apply bool_decide_ext. rewrite Htl.
  symmetry. exact (chain_empty_iff _ _ _ _ Hlive Hchain).
Qed.

(** X2.  [empty()] tells whether the queue holds no value, and hands the
    queue object back as it was. *)
Theorem empty_decides_emptiness q vs :
  represents q vs →
  empty q = Returns (bool_decide (vs = [])) q.
Proof. apply empty_run. Qed.

(** X3.  With nothing in the queue and no other thread to push,
    [wait_and_pop()] sleeps on the condition variable: it neither returns
    nor runs into undefined behaviour. *)
Theorem wait_and_pop_sleeps_on_empty q :
  at_rest q → head_ q = tail_ q →
  wait_and_pop q = Blocks.
Proof.
  intros Hrest Heq. unfold wait_and_pop, wait_and_pop_head.
  apply bind_blocks, bind_blocks. by apply wait_for_data_empty.
Qed.

(** X4.  [push] needs the tail end only.  Whenever the tail mutex is free
    and [tail_] points at a placeholder, whatever the state of [head_] and
    of the head mutex, a push with memory to spare returns; it allocates
    one node at an address that was free, fills and links the old
    placeholder, and leaves every other node, [head_] and the head mutex
    as they were. *)
Theorem push_touches_the_tail_end_only q v t :
  tail_mutex_ q = false → tail_ q = Some t →
  nodes q !! t = Some (Node None None) →
  ∃ q' new,
    push granted granted v q = Returns tt q' ∧
    nodes q !! new = None ∧
    dom (nodes q') = {[new]} ∪ dom (nodes q) ∧
    nodes q' !! t = Some (Node (Some v) (Some new)) ∧
    nodes q' !! new = Some (Node None None) ∧
    tail_ q' = Some new ∧
    (∀ a, a ≠ t → a ≠ new → nodes q' !! a = nodes q !! a) ∧
    head_ q' = head_ q ∧ head_mutex_ q' = head_mutex_ q ∧
    tail_mutex_ q' = false.
Proof.
  intros Hfree Htl Hlive.
  pose proof (fresh_not_live q t _ Hlive) as Hne.
  eexists. exists (fresh (dom (nodes q))).
  split; [by apply (push_granted q v t) |]. simpl.
  split_and!; try done.
  - apply not_elem_of_dom, is_fresh.
  - rewrite !dom_insert_L.
    assert (t ∈ dom (nodes q)) as Hin by (apply elem_of_dom; eauto).
    apply set_eq. intros x. rewrite !elem_of_union, !elem_of_singleton.
    split; [intros [-> | Hx]; [by right | done] | by right].
  - by rewrite lookup_insert_eq.
  - rewrite lookup_insert_ne by done. by rewrite lookup_insert_eq.
  - intros a Hat Han. by rewrite !lookup_insert_ne.
Qed.

End further.

(** ** A queue from construction to destruction *)

(** X6.  Construct a queue, push any list of values, destroy it: the pushes
    return a queue holding the list, with one node more than values.  The
    destructor then returns with no node left in the free store when the
    call stack has room for one nested deletion per node, and is undefined
    when it has not. *)
Theorem lifetime_leaves_no_node {T : Type} (vs : list T) (stack : nat) :
  ∃ q, push_all vs threadsafe_queue_new = Returns tt q ∧
       represents q vs ∧
       size (nodes q) = S (length vs) ∧
       data_cond_ q = length vs ∧
       if decide (length vs < stack) then
         ∃ q', threadsafe_queue_delete stack q = Returns tt q' ∧ nodes q' = ∅
       else threadsafe_queue_delete stack q = Undefined.
Proof.
  destruct (push_all_run vs threadsafe_queue_new [] represents_new)
    as (q & Hrun & Hrep & _ & Hdc & Hsz).
  exists q. simpl in *.
  assert (size (nodes q) = S (length vs)) as Hq.
  { rewrite Hsz. by rewrite map_size_singleton. }
  split_and!; [done | done | done | done |].
  pose proof (destructor_run q vs stack Hrep) as Hdel.
  destruct (decide (length vs < stack)); [| done].
  destruct Hdel as (q' & Hdel & _ & Hsize & _).
  exists q'. split; [done |]. apply map_size_empty_inv. lia.
Qed.

(** X7.  After any list of pushes onto a fresh queue, [empty()] answers
    [true] exactly when the list was empty. *)
Theorem empty_after_pushes {T : Type} (vs : list T) :
  ∃ q, (push_all vs ;; empty) threadsafe_queue_new
       = Returns (bool_decide (vs = [])) q ∧ represents q vs.
Proof.
  destruct (push_all_run vs threadsafe_queue_new [] represents_new)
    as (q & Hrun & Hrep & _).
  exists q. split; [| done].
  rewrite (bind_returns _ _ _ _ _ Hrun). by apply empty_run.
Qed.

(** ** Instances *)

Lemma destructor_frees_the_list_witness :
  represents queue_7 [7%Z] ∧
  (∃ q', threadsafe_queue_delete 2 queue_7 = Returns tt q' ∧
         nodes q' ⊆ nodes queue_7 ∧
         size (nodes queue_7) = size (nodes q') + 2 ∧
         (∀ a, head_ queue_7 = Some a ∨ tail_ queue_7 = Some a →
               nodes q' !! a = None)) ∧
  threadsafe_queue_delete 1 queue_7 = Undefined.
Proof.
  assert (represents queue_7 [7%Z]) as Hrep.
  { exists 2%positive. split_and!; [reflexivity | reflexivity | | split; reflexivity].
    exists 1%positive, (Some 2%positive).
    split_and!; [reflexivity | reflexivity | reflexivity]. }
  split; [exact Hrep |]. split.
  - exact (destructor_frees_the_list queue_7 [7%Z] 2 Hrep).
  - exact (destructor_frees_the_list queue_7 [7%Z] 1 Hrep).
Defined.

Lemma push_all_appends_witness :
  represents queue_7 [7%Z] ∧
  ∃ q', push_all [8%Z; 9%Z] queue_7 = Returns tt q' ∧
        represents q' [7%Z; 8%Z; 9%Z] ∧
        head_ q' = head_ queue_7 ∧
        data_cond_ q' = data_cond_ queue_7 + 2 ∧
        size (nodes q') = size (nodes queue_7) + 2.
Proof.
  assert (represents queue_7 [7%Z]) as Hrep.
  { exists 2%positive. split_and!; [reflexivity | reflexivity | | split; reflexivity].
    exists 1%positive, (Some 2%positive).
    split_and!; [reflexivity | reflexivity | reflexivity]. }
  split; [exact Hrep |].
  exact (push_all_appends [8%Z; 9%Z] queue_7 [7%Z] Hrep).
Defined.

Lemma empty_decides_emptiness_witness :
  represents queue_7 [7%Z] ∧ empty queue_7 = Returns false queue_7.
Proof.
  assert (represents queue_7 [7%Z]) as Hrep.
  { exists 2%positive. split_and!; [reflexivity | reflexivity | | split; reflexivity].
    exists 1%positive, (Some 2%positive).
    split_and!; [reflexivity | reflexivity | reflexivity]. }
  split; [exact Hrep |].
  exact (empty_decides_emptiness queue_7 [7%Z] Hrep).
Defined.

Lemma wait_and_pop_sleeps_on_empty_witness :
  at_rest queue_0 ∧ head_ queue_0 = tail_ queue_0 ∧
  wait_and_pop queue_0 = Blocks.
Proof.
  split; [split; reflexivity |]. split; [reflexivity |].
  apply (wait_and_pop_sleeps_on_empty queue_0).
  - split; reflexivity.
  - reflexivity.
Defined.

Lemma push_touches_the_tail_end_only_witness :
  tail_mutex_ (set_head_mutex_ true queue_7) = false ∧
  tail_ (set_head_mutex_ true queue_7) = Some 2%positive ∧
  nodes (set_head_mutex_ true queue_7) !! 2%positive = Some (Node None None) ∧
  ∃ q' new,
    push granted granted 8%Z (set_head_mutex_ true queue_7) = Returns tt q' ∧
    nodes (set_head_mutex_ true queue_7) !! new = None ∧
    dom (nodes q') = {[new]} ∪ dom (nodes (set_head_mutex_ true queue_7)) ∧
    nodes q' !! 2%positive = Some (Node (Some 8%Z) (Some new)) ∧
    nodes q' !! new = Some (Node None None) ∧
    tail_ q' = Some new ∧
    (∀ a, a ≠ 2%positive → a ≠ new →
          nodes q' !! a = nodes (set_head_mutex_ true queue_7) !! a) ∧
    head_ q' = head_ (set_head_mutex_ true queue_7) ∧
    head_mutex_ q' = head_mutex_ (set_head_mutex_ true queue_7) ∧
    tail_mutex_ q' = false.
Proof.
  split; [reflexivity |]. split; [reflexivity |]. split; [reflexivity |].
  apply (push_touches_the_tail_end_only (set_head_mutex_ true queue_7) 8%Z 2%positive);
    reflexivity.
Defined.
